(** * simpleplex.model.podcasts

    A model of [simpleplex/model/podcasts.py]: the [podcasts] table, the
    [Podcast] class with its slug validator, and the mapper properties
    ([author], [media_count], [published_media_count]).

    The SQL expressions the mapper builds are evaluated with SQL's
    three-valued logic over nullable columns; attribute assignment and
    flushing are written with explicit state passing and an error sum. *)

From Stdlib Require Import ZArith Ascii String Lia.
From stdpp Require Import base decidable option list strings.

Local Open Scope Z_scope.

(** ** SQL expression semantics

    The fragment of SQL used by the two [column_property] sub-selects:
    integer columns that may be NULL, the bitwise [&] operator, [=],
    [AND] and [count(col)]. *)
Module Sql.

(** A nullable integer: [None] is NULL. *)
Definition int := option Z.

(** A truth value: [None] is UNKNOWN. *)
Definition tri := option bool.

(** [col.op('&')(k)] *)
Definition op_amp (a b : int) : int :=
  match a, b with
  | Some x, Some y => Some (Z.land x y)
  | _, _ => None
  end.

(** [a == b] on column expressions *)
Definition eq (a b : int) : tri :=
  match a, b with
  | Some x, Some y => Some (x =? y)
  | _, _ => None
  end.

Definition and2 (a b : tri) : tri :=
  match a, b with
  | Some false, _ | _, Some false => Some false
  | Some true, Some true => Some true
  | _, _ => None
  end.

(** [sql.and_(c1, ..., cn)] *)
Definition and_ (clauses : list tri) : tri := foldr and2 (Some true) clauses.

(** A WHERE clause keeps the row only when it evaluates to TRUE. *)
Definition holds (t : tri) : bool :=
  match t with
  | Some true => true
  | _ => false
  end.

Definition not_null (a : int) : bool :=
  match a with
  | Some _ => true
  | None => false
  end.

(** [select([func.count(col)], whereclause)] over the rows of one table:
    the number of selected rows whose [col] is not NULL. *)
Fixpoint select_count {R : Type} (col : R -> int) (whereclause : R -> tri)
    (rows : list R) : Z :=
  match rows with
  | [] => 0
  | r :: rest =>
      (if holds (whereclause r) && not_null (col r) then 1 else 0)
      + select_count col whereclause rest
  end.

End Sql.

(** ** Exceptions

    Python exceptions are carried in a sum: an operation either returns or
    raises. The only exception the storage layer raises from this table's
    declaration is an integrity error naming the violated constraint. *)
Inductive constraint : Type :=
  | NotNull (column : string)
  | Unique (column : string)
  | PrimaryKey.

Inductive exn : Type :=
  | IntegrityError (violated : constraint).

Inductive result (A : Type) : Type :=
  | Ok (a : A)
  | Raise (e : exn).

Arguments Ok {A} a.
Arguments Raise {A} e.

Definition bind {A B : Type} (r : result A) (k : A -> result B) : result B :=
  match r with
  | Ok a => k a
  | Raise e => Raise e
  end.

(** ** Names imported from [simpleplex.model]

    [slugify] and [Author] are defined in other modules of the package;
    both are written here from their documented contracts. *)
Module Model.

(** Modelled from the spec: the character classes [slugify] tells apart
    (the body of [slugify] is missing): ASCII capitals, small letters and
    digits. *)
Definition is_upper (c : ascii) : bool :=
  ((65 <=? N_of_ascii c) && (N_of_ascii c <=? 90))%N.

Definition is_lower (c : ascii) : bool :=
  ((97 <=? N_of_ascii c) && (N_of_ascii c <=? 122))%N.

Definition is_digit (c : ascii) : bool :=
  ((48 <=? N_of_ascii c) && (N_of_ascii c <=? 57))%N.

Definition alnum (c : ascii) : bool := is_upper c || is_lower c || is_digit c.

(** Modelled from the spec: lower-casing, the first step of [slugify]
    (body missing). *)
Definition lower (c : ascii) : ascii :=
  if is_upper c then ascii_of_N (N_of_ascii c + 32) else c.

Definition separator : ascii := "-"%char.

(** Modelled from the spec: the second step of [slugify] (body missing).
    Every maximal run of non-alphanumeric characters becomes one
    separator; [after_sep] tells that the previous character emitted was
    a separator. *)
Fixpoint collapse (after_sep : bool) (cs : list ascii) : list ascii :=
  match cs with
  | [] => []
  | c :: rest =>
      if alnum c then c :: collapse false rest
      else if after_sep then collapse true rest
      else separator :: collapse true rest
  end.

(** Modelled from the spec: [slugify] of [simpleplex/model/__init__.py],
    whose body is missing. Its contract: lower-cased, non-alphanumeric
    collapsed to separators, at most 50 characters. Characters are 8-bit;
    anything outside the ASCII letters and digits is non-alphanumeric. *)
Definition slugify (s : string) : string :=
  string_of_list_ascii
    (take 50 (collapse false (lower <$> list_ascii_of_string s))).

(** The characters [slugify] returns, before they are packed. *)
Definition slug_chars (s : string) : list ascii :=
  take 50 (collapse false (lower <$> list_ascii_of_string s)).

(** The characters a slug is made of. *)
Definition slug_char (c : ascii) : bool :=
  is_lower c || is_digit c || Ascii.eqb c separator.

(** The unreserved characters of RFC 3986, which need no escaping
    anywhere in a URL. *)
Definition url_safe (c : ascii) : bool :=
  alnum c
  || Ascii.eqb c "-" || Ascii.eqb c "." || Ascii.eqb c "_" || Ascii.eqb c "~".

(** Modelled from the spec: the [Author] class of
    [simpleplex/model/authors.py], whose body is missing. Its contract: a
    value type with two fields, built at read time from the two columns
    and decomposed at write time back into them, equal to another iff
    both fields match. A field holds [None] until it is given a string. *)
Record Author : Type := Build_Author {
  name : option string;
  email : option string
}.

(** Modelled from the spec: [Author.__composite_values__] (body missing),
    the two fields in the order of the composite's columns. *)
Definition composite_values (a : Author) : option string * option string :=
  (name a, email a).

(** Modelled from the spec: [Author.__eq__] (body missing), equality of
    both fields. *)
Definition Author_eq (a b : Author) : bool :=
  bool_decide (name a = name b) && bool_decide (email a = email b).

End Model.

(** ** The [media] table, as far as this file reads it

    Only three columns of [simpleplex.model.media.media] are referenced:
    the primary key, the nullable foreign key to [podcasts.id] and the
    integer status bitmask. *)
Module Media.

Record t : Type := Build {
  id : Z;
  podcast_id : option Z;
  status : Z
}.

End Media.

(** ** The [podcasts] table and the [Podcast] class *)
Module Podcast.

(** An instance of [Podcast]: one attribute per column of [podcasts].
    An attribute that was never assigned reads as [None]; timestamps are
    seconds. *)
Record t : Type := Build {
  id : option Z;
  slug : option string;
  created_on : option Z;
  modified_on : option Z;
  title : option string;
  subtitle : option string;
  description : option string;
  category : option string;
  author_name : option string;
  author_email : option string;
  explicit : option bool;
  copyright : option string;
  itunes_url : option string;
  feedburner_url : option string
}.

Section Counters.

(** [int(MediaStatus('trash'))] and [int(MediaStatus('publish'))]:
    [MediaStatus] is defined in [simpleplex.model.media], so the two
    integers are parameters here. *)
Variables TRASH PUBLISH : Z.

(** The ['media_count'] property: a sub-select correlated on
    [podcasts.c.id]. *)
Definition media_count (self : t) (media : list Media.t) : Z :=
  Sql.select_count
    (fun m => Some (Media.id m))
    (fun m => Sql.and_
       [ Sql.eq (Media.podcast_id m) (id self);
         Sql.eq (Sql.op_amp (Some (Media.status m)) (Some TRASH)) (Some 0) ])
    media.

(** The ['published_media_count'] property. *)
Definition published_media_count (self : t) (media : list Media.t) : Z :=
  Sql.select_count
    (fun m => Some (Media.id m))
    (fun m => Sql.and_
       [ Sql.eq (Media.podcast_id m) (id self);
         Sql.eq (Sql.op_amp (Some (Media.status m)) (Some PUBLISH)) (Some PUBLISH);
         Sql.eq (Sql.op_amp (Some (Media.status m)) (Some TRASH)) (Some 0) ])
    media.

(** The counters as the documentation words them: the number of rows
    that belong to podcast [i] and pass the bitmask test. *)
Definition belongs_untrashed (i : Z) (m : Media.t) : Prop :=
  Media.podcast_id m = Some i ∧ Z.land (Media.status m) TRASH = 0.

Definition belongs_published (i : Z) (m : Media.t) : Prop :=
  Media.podcast_id m = Some i
  ∧ Z.land (Media.status m) PUBLISH = PUBLISH
  ∧ Z.land (Media.status m) TRASH = 0.

#[global] Instance belongs_untrashed_dec i m : Decision (belongs_untrashed i m).
Proof. unfold belongs_untrashed. apply _. Defined.

#[global] Instance belongs_published_dec i m : Decision (belongs_published i m).
Proof. unfold belongs_published. apply _. Defined.

End Counters.

(** [Podcast()]: the class defines no [__init__]; no attribute is set. *)
Definition new : t :=
  Build None None None None None None None None None None None None None None.

Definition with_slug (v : option string) (p : t) : t :=
  Build (id p) v (created_on p) (modified_on p) (title p) (subtitle p)
    (description p) (category p) (author_name p) (author_email p)
    (explicit p) (copyright p) (itunes_url p) (feedburner_url p).

Definition with_title (v : option string) (p : t) : t :=
  Build (id p) (slug p) (created_on p) (modified_on p) v (subtitle p)
    (description p) (category p) (author_name p) (author_email p)
    (explicit p) (copyright p) (itunes_url p) (feedburner_url p).

Definition with_author_name (v : option string) (p : t) : t :=
  Build (id p) (slug p) (created_on p) (modified_on p) (title p) (subtitle p)
    (description p) (category p) v (author_email p)
    (explicit p) (copyright p) (itunes_url p) (feedburner_url p).

Definition with_author_email (v : option string) (p : t) : t :=
  Build (id p) (slug p) (created_on p) (modified_on p) (title p) (subtitle p)
    (description p) (category p) (author_name p) v
    (explicit p) (copyright p) (itunes_url p) (feedburner_url p).

Definition with_explicit (v : option bool) (p : t) : t :=
  Build (id p) (slug p) (created_on p) (modified_on p) (title p) (subtitle p)
    (description p) (category p) (author_name p) (author_email p)
    v (copyright p) (itunes_url p) (feedburner_url p).

Definition with_id (v : option Z) (p : t) : t :=
  Build v (slug p) (created_on p) (modified_on p) (title p) (subtitle p)
    (description p) (category p) (author_name p) (author_email p)
    (explicit p) (copyright p) (itunes_url p) (feedburner_url p).

Definition with_created_on (v : option Z) (p : t) : t :=
  Build (id p) (slug p) v (modified_on p) (title p) (subtitle p)
    (description p) (category p) (author_name p) (author_email p)
    (explicit p) (copyright p) (itunes_url p) (feedburner_url p).

Definition with_modified_on (v : option Z) (p : t) : t :=
  Build (id p) (slug p) (created_on p) v (title p) (subtitle p)
    (description p) (category p) (author_name p) (author_email p)
    (explicit p) (copyright p) (itunes_url p) (feedburner_url p).

Section Slug.

(** [slugify] is imported from [simpleplex.model]; the validator is
    written over any total normalizer. *)
Variable slugify : string -> string.

(** [@validates('slug') def validate_slug(self, key, slug)] *)
Definition validate_slug (self : t) (key : string) (slug : string) : string :=
  slugify slug.

(** [self.slug = value]: the mapper runs the validator registered for
    the attribute and stores what it returns. The table is not
    consulted. *)
Definition set_slug (self : t) (value : string) : result t :=
  Ok (with_slug (Some (validate_slug self "slug" value)) self).

End Slug.

(** [self.title = value] *)
Definition set_title (self : t) (value : string) : result t :=
  Ok (with_title (Some value) self).

(** [self.explicit = value] *)
Definition set_explicit (self : t) (value : bool) : result t :=
  Ok (with_explicit (Some value) self).

(** The ['author'] property,
    [composite(Author, podcasts.c.author_name, podcasts.c.author_email)]:
    reading builds [Author(author_name, author_email)]. *)
Definition author (self : t) : Model.Author :=
  Model.Build_Author (author_name self) (author_email self).

(** [self.author = value]: the composite values are written to the two
    columns, in the order the columns were given. *)
Definition set_author (self : t) (value : Model.Author) : result t :=
  let '(n, e) := Model.composite_values value in
  Ok (with_author_email e (with_author_name n self)).

(** The iTunes value the [explicit] attribute stands for. *)
Inductive itunes_explicit : Type := yes | no | clean.

Definition explicit_value (self : t) : itunes_explicit :=
  match explicit self with
  | Some true => yes
  | None => no
  | Some false => clean
  end.

(** *** Rows of [podcasts]

    The table is the list of its rows, oldest first. Flushing a pending
    instance is an INSERT: column defaults are filled in, then the
    constraints declared on the columns are checked. *)

(** [default=...] applies only where the instance has no value. *)
Definition column_default {A : Type} (dflt : option A) (v : option A) : option A :=
  match v with
  | Some x => Some x
  | None => dflt
  end.

(** [autoincrement=True]: one more than the largest key in use. *)
Definition next_id (table : list t) : Z :=
  1 + foldr Z.max 0 (omap id table).

Definition apply_defaults (now : Z) (table : list t) (p : t) : t :=
  with_explicit (column_default None (explicit p))
    (with_modified_on (column_default (Some now) (modified_on p))
      (with_created_on (column_default (Some now) (created_on p))
        (with_id (column_default (Some (next_id table)) (id p)) p))).

Definition is_null {A : Type} (v : option A) : bool :=
  match v with
  | Some _ => false
  | None => true
  end.

(** The columns declared [nullable=False], in declaration order. *)
Definition not_null_columns : list (string * (t -> bool)) :=
  [ ("slug"%string, fun r => is_null (slug r));
    ("created_on"%string, fun r => is_null (created_on r));
    ("modified_on"%string, fun r => is_null (modified_on r));
    ("title"%string, fun r => is_null (title r));
    ("author_name"%string, fun r => is_null (author_name r));
    ("author_email"%string, fun r => is_null (author_email r)) ].

Fixpoint check_not_null (cols : list (string * (t -> bool))) (row : t) : result unit :=
  match cols with
  | [] => Ok tt
  | (column, null_in) :: rest =>
      if null_in row then Raise (IntegrityError (NotNull column))
      else check_not_null rest row
  end.

(** [primary_key=True] on [id]. *)
Definition check_primary_key (table : list t) (row : t) : result unit :=
  if bool_decide (id row ∈ id <$> table)
  then Raise (IntegrityError PrimaryKey)
  else Ok tt.

(** [unique=True] on [slug]. *)
Definition check_unique_slug (table : list t) (row : t) : result unit :=
  if bool_decide (slug row ∈ slug <$> table)
  then Raise (IntegrityError (Unique "slug"))
  else Ok tt.

Definition insert (now : Z) (table : list t) (p : t) : result (list t) :=
  let row := apply_defaults now table p in
  bind (check_not_null not_null_columns row) (fun _ =>
  bind (check_primary_key table row) (fun _ =>
  bind (check_unique_slug table row) (fun _ =>
  Ok (table ++ [row])))).

(** [DBSession.commit()] with [pending] added to the session: the
    instances are inserted in the order they were added; the first
    failure aborts the transaction and is raised to the caller. *)
Fixpoint commit (now : Z) (table : list t) (pending : list t) : result (list t) :=
  match pending with
  | [] => Ok table
  | p :: rest => bind (insert now table p) (fun table' => commit now table' rest)
  end.

(** A new instance whose required attributes other than the slug have
    been assigned, and whose key is left to the table. *)
Definition ready_for_slug (p : t) : Prop :=
  id p = None
  ∧ is_Some (title p) ∧ is_Some (author_name p) ∧ is_Some (author_email p).

(** *** The remaining members of the class and of the mapper *)

(** [__repr__]: ['<Podcast: %s>' % self.slug]. [%s] prints a string as it
    is and [None] as the four letters of its name. *)
Definition repr (self : t) : string :=
  String.append "<Podcast: "
    (String.append
       (match slug self with
        | Some s => s
        | None => "None"%string
        end)
       ">").

(** The ['media'] property, [dynamic_loader(Media, backref='podcast')]:
    a query for the rows of [media] whose foreign key is this podcast's
    key, the condition the two counters correlate on. *)
Definition media (self : t) (rows : list Media.t) : list Media.t :=
  filter (λ m, Sql.holds (Sql.eq (Media.podcast_id m) (id self)) = true) rows.

(** The backref ['podcast'] the loader puts on [Media]: the row of
    [podcasts] the foreign key names, [None] when the key is NULL or names
    no row. *)
Definition podcast (table : list t) (m : Media.t) : option t :=
  match Media.podcast_id m with
  | None => None
  | Some i => List.find (λ p, bool_decide (id p = Some i)) table
  end.

(** What the declaration of [podcasts] promises about its rows: the
    primary key is set and unique, [slug] is unique, and no column
    declared [nullable=False] is NULL. *)
Definition table_ok (table : list t) : Prop :=
  NoDup (id <$> table)
  ∧ NoDup (slug <$> table)
  ∧ Forall (λ r, is_Some (id r)
              ∧ check_not_null not_null_columns r = Ok tt) table.


(** Every foreign key in [rows] names a row of [table]. *)
Definition references_ok (table : list t) (rows : list Media.t) : Prop :=
  ∀ m i, m ∈ rows → Media.podcast_id m = Some i → Some i ∈ id <$> table.

(** The sum of a list of counts. *)
Definition total (counts : list Z) : Z := foldr Z.add 0 counts.

End Podcast.

(** ** Sample data

    Podcast 7 with four episodes, taking trash = 1, publish = 2 and
    draft = 4: the statuses are {trash}, {publish}, {publish, trash} and
    {publish, draft}. *)
Definition podcast7 : Podcast.t := Podcast.with_id (Some 7) Podcast.new.

Definition episodes7 : list Media.t :=
  [ Media.Build 1 (Some 7) 1; Media.Build 2 (Some 7) 2;
    Media.Build 3 (Some 7) 3; Media.Build 4 (Some 7) 6 ].

(** A new podcast with its title and author assigned, the slug not yet. *)
Definition my_show : Podcast.t :=
  Podcast.with_author_email (Some "a@x.com"%string)
    (Podcast.with_author_name (Some "A"%string)
      (Podcast.with_title (Some "My Show"%string) Podcast.new)).

(** * Properties *)

(** ** The episode counters *)
Section CounterFacts.

Variables TRASH PUBLISH : Z.

Lemma select_count_filter {R : Type} (col : R -> Sql.int) (w : R -> Sql.tri)
    (P : R -> Prop) `{!∀ r, Decision (P r)} (rows : list R) :
  (∀ r, Sql.holds (w r) && Sql.not_null (col r) = true ↔ P r) →
  Sql.select_count col w rows = Z.of_nat (length (filter P rows)).
Proof.
  intros Hw. induction rows as [|r rows IH]; [reflexivity|].
  cbn [Sql.select_count]. rewrite IH, filter_cons.
  destruct (decide (P r)) as [HP|HP].
  - apply Hw in HP. rewrite HP. cbn [length]. lia.
  - destruct (Sql.holds (w r) && Sql.not_null (col r)) eqn:E.
    + apply Hw in E. contradiction.
    + lia.
Qed.

Lemma select_count_nonneg {R : Type} (col : R -> Sql.int) (w : R -> Sql.tri)
    (rows : list R) :
  0 <= Sql.select_count col w rows.
Proof.
  induction rows as [|r rows IH]; cbn [Sql.select_count]; [lia|].
  destruct (Sql.holds (w r) && Sql.not_null (col r)); lia.
Qed.

Lemma select_count_mono {R : Type} (col : R -> Sql.int) (w1 w2 : R -> Sql.tri)
    (rows : list R) :
  (∀ r, Sql.holds (w1 r) = true → Sql.holds (w2 r) = true) →
  Sql.select_count col w1 rows <= Sql.select_count col w2 rows.
Proof.
  intros Hw. induction rows as [|r rows IH]; cbn [Sql.select_count]; [lia|].
  specialize (Hw r).
  destruct (Sql.holds (w1 r)); [rewrite Hw by reflexivity|];
    cbn [andb]; destruct (Sql.holds (w2 r) && Sql.not_null (col r));
    destruct (Sql.not_null (col r)); lia.
Qed.

Lemma select_count_app {R : Type} (col : R -> Sql.int) (w : R -> Sql.tri)
    (l1 l2 : list R) :
  Sql.select_count col w (l1 ++ l2)
  = Sql.select_count col w l1 + Sql.select_count col w l2.
Proof.
  induction l1 as [|r l1 IH]; cbn [Sql.select_count app]; [lia|].
  rewrite IH. lia.
Qed.

(** The WHERE clause of [media_count], row by row. *)
Lemma media_count_where (i : Z) (m : Media.t) :
  Sql.holds (Sql.and_
    [ Sql.eq (Media.podcast_id m) (Some i);
      Sql.eq (Sql.op_amp (Some (Media.status m)) (Some TRASH)) (Some 0) ]) = true
  ↔ Podcast.belongs_untrashed TRASH i m.
Proof.
  unfold Podcast.belongs_untrashed. cbn.
  destruct (Z.eqb_spec (Z.land (Media.status m) TRASH) 0) as [Hz|Hz];
    destruct (Media.podcast_id m) as [j|]; cbn;
    try destruct (Z.eqb_spec j i) as [->|Hji]; cbn;
    split; intros H; try discriminate; try (split; congruence);
    destruct H as [H1 H2]; congruence.
Qed.

(** The WHERE clause of [published_media_count], row by row. *)
Lemma published_media_count_where (i : Z) (m : Media.t) :
  Sql.holds (Sql.and_
    [ Sql.eq (Media.podcast_id m) (Some i);
      Sql.eq (Sql.op_amp (Some (Media.status m)) (Some PUBLISH)) (Some PUBLISH);
      Sql.eq (Sql.op_amp (Some (Media.status m)) (Some TRASH)) (Some 0) ]) = true
  ↔ Podcast.belongs_published TRASH PUBLISH i m.
Proof.
  unfold Podcast.belongs_published. cbn.
  destruct (Z.eqb_spec (Z.land (Media.status m) PUBLISH) PUBLISH) as [Hp|Hp];
    destruct (Z.eqb_spec (Z.land (Media.status m) TRASH) 0) as [Hz|Hz];
    destruct (Media.podcast_id m) as [j|]; cbn;
    try destruct (Z.eqb_spec j i) as [->|Hji]; cbn;
    split; intros H; try discriminate; try (repeat split; congruence);
    destruct H as (H1 & H2 & H3); congruence.
Qed.

End CounterFacts.

(** C1: [published_media_count] is the number of media rows whose
    [podcast_id] is this podcast's id and whose status satisfies
    [status & PUBLISH = PUBLISH] and [status & TRASH = 0]. *)
Theorem published_media_count_spec (TRASH PUBLISH : Z) (p : Podcast.t) (i : Z)
    (media : list Media.t) :
  Podcast.id p = Some i →
  Podcast.published_media_count TRASH PUBLISH p media
  = Z.of_nat (length (filter (Podcast.belongs_published TRASH PUBLISH i) media)).
Proof.
  intros Hid. unfold Podcast.published_media_count. rewrite Hid.
  apply select_count_filter. intros m.
  rewrite andb_true_r. apply published_media_count_where.
Qed.

Lemma published_media_count_spec_witness :
  Podcast.id podcast7 = Some 7
  ∧ Podcast.published_media_count 1 2 podcast7 episodes7
    = Z.of_nat (length (filter (Podcast.belongs_published 1 2 7) episodes7)).
Proof.
  split; [reflexivity|].
  exact (published_media_count_spec 1 2 podcast7 7 episodes7 eq_refl).
Defined.

(** C2: [media_count] is the number of media rows whose [podcast_id] is
    this podcast's id and whose status satisfies [status & TRASH = 0],
    whatever the other status bits are. *)
Theorem media_count_spec (TRASH : Z) (p : Podcast.t) (i : Z)
    (media : list Media.t) :
  Podcast.id p = Some i →
  Podcast.media_count TRASH p media
  = Z.of_nat (length (filter (Podcast.belongs_untrashed TRASH i) media)).
Proof.
  intros Hid. unfold Podcast.media_count. rewrite Hid.
  apply select_count_filter. intros m.
  rewrite andb_true_r. apply (media_count_where TRASH).
Qed.

Lemma media_count_spec_witness :
  Podcast.id podcast7 = Some 7
  ∧ Podcast.media_count 1 podcast7 episodes7
    = Z.of_nat (length (filter (Podcast.belongs_untrashed 1 7) episodes7)).
Proof.
  split; [reflexivity|].
  exact (media_count_spec 1 podcast7 7 episodes7 eq_refl).
Defined.

(** The worked example: two of the four episodes count for both counters. *)
Example counters_on_episodes7 :
  Podcast.media_count 1 podcast7 episodes7 = 2
  ∧ Podcast.published_media_count 1 2 podcast7 episodes7 = 2
  ∧ Podcast.media_count 1 podcast7 [] = 0
  ∧ Podcast.published_media_count 1 2 podcast7 [] = 0.
Proof. repeat split; reflexivity. Qed.

(** C3: for every podcast, every list of media rows and any values of the
    two status bits, [media_count >= published_media_count >= 0]. *)
Theorem media_count_ge_published_ge_0 (TRASH PUBLISH : Z) (p : Podcast.t)
    (media : list Media.t) :
  0 <= Podcast.published_media_count TRASH PUBLISH p media
  ∧ Podcast.published_media_count TRASH PUBLISH p media
    <= Podcast.media_count TRASH p media.
Proof.
  split; [apply select_count_nonneg|].
  apply select_count_mono. intros m. cbn [Sql.and_ foldr].
  generalize (Sql.eq (Media.podcast_id m) (Podcast.id p)).
  generalize (Sql.eq (Sql.op_amp (Some (Media.status m)) (Some PUBLISH)) (Some PUBLISH)).
  generalize (Sql.eq (Sql.op_amp (Some (Media.status m)) (Some TRASH)) (Some 0)).
  intros [[]|] [[]|] [[]|]; cbn; congruence.
Qed.

(** C4: a media row with both the publish bit and the trash bit set adds
    nothing to either counter, wherever it stands among the rows. *)
Theorem published_and_trashed_not_counted (TRASH PUBLISH : Z) (p : Podcast.t)
    (m : Media.t) (before after : list Media.t) :
  TRASH ≠ 0 →
  Z.land (Media.status m) PUBLISH = PUBLISH →
  Z.land (Media.status m) TRASH = TRASH →
  Podcast.media_count TRASH p (before ++ m :: after)
  = Podcast.media_count TRASH p (before ++ after)
  ∧ Podcast.published_media_count TRASH PUBLISH p (before ++ m :: after)
    = Podcast.published_media_count TRASH PUBLISH p (before ++ after).
Proof.
  intros Hbit Hpub Htrash.
  assert (Hz : (Z.land (Media.status m) TRASH =? 0) = false)
    by (rewrite Htrash; apply Z.eqb_neq, Hbit).
  unfold Podcast.media_count, Podcast.published_media_count.
  rewrite !select_count_app. cbn [Sql.select_count Sql.and_ foldr Sql.op_amp Sql.eq].
  rewrite Hz.
  destruct (Sql.eq (Media.podcast_id m) (Podcast.id p)) as [[]|];
    destruct (Z.land (Media.status m) PUBLISH =? PUBLISH); cbn; lia.
Qed.

Lemma published_and_trashed_not_counted_witness :
  (1 ≠ 0 ∧ Z.land 3 2 = 2 ∧ Z.land 3 1 = 1)
  ∧ Podcast.media_count 1 podcast7
      ([Media.Build 1 (Some 7) 1; Media.Build 2 (Some 7) 2]
       ++ Media.Build 3 (Some 7) 3 :: [Media.Build 4 (Some 7) 6])
    = Podcast.media_count 1 podcast7
      ([Media.Build 1 (Some 7) 1; Media.Build 2 (Some 7) 2]
       ++ [Media.Build 4 (Some 7) 6])
  ∧ Podcast.published_media_count 1 2 podcast7
      ([Media.Build 1 (Some 7) 1; Media.Build 2 (Some 7) 2]
       ++ Media.Build 3 (Some 7) 3 :: [Media.Build 4 (Some 7) 6])
    = Podcast.published_media_count 1 2 podcast7
      ([Media.Build 1 (Some 7) 1; Media.Build 2 (Some 7) 2]
       ++ [Media.Build 4 (Some 7) 6]).
Proof.
  split; [repeat split; lia|].
  apply (published_and_trashed_not_counted 1 2 podcast7 (Media.Build 3 (Some 7) 3));
    [lia | reflexivity | reflexivity].
Defined.

(** ** The slug normalizer *)
Section SlugifyFacts.

Import Model.

Lemma lower_slug_char (c : ascii) :
  alnum (lower c) = true → slug_char (lower c) = true.
Proof. destruct c as [[] [] [] [] [] [] [] []]; vm_compute; congruence. Qed.

Lemma slug_char_lower (c : ascii) : slug_char c = true → lower c = c.
Proof. destruct c as [[] [] [] [] [] [] [] []]; vm_compute; congruence. Qed.

Lemma slug_char_url_safe (c : ascii) : slug_char c = true → url_safe c = true.
Proof. destruct c as [[] [] [] [] [] [] [] []]; vm_compute; congruence. Qed.

Lemma collapse_length (b : bool) (cs : list ascii) :
  (length (collapse b cs) ≤ length cs)%nat.
Proof.
  revert b. induction cs as [|c cs IH]; intros b; cbn [collapse length]; [lia|].
  destruct (alnum c); [|destruct b]; cbn [length];
    first [ specialize (IH false); lia | specialize (IH true); lia ].
Qed.

(** Normalizing the characters a second time changes nothing. *)
Lemma collapse_idem (b : bool) (cs : list ascii) :
  collapse b (collapse b cs) = collapse b cs.
Proof.
  revert b. induction cs as [|c cs IH]; intros b; [reflexivity|].
  cbn [collapse]. destruct (alnum c) eqn:Hc.
  - cbn [collapse]. rewrite Hc, IH. reflexivity.
  - destruct b; [apply IH|].
    cbn [collapse]. replace (alnum separator) with false by reflexivity.
    rewrite IH. reflexivity.
Qed.

(** A prefix of normalized characters is normalized. *)
Lemma collapse_take_fixed (n : nat) (b : bool) (cs : list ascii) :
  collapse b cs = cs → collapse b (take n cs) = take n cs.
Proof.
  revert n b. induction cs as [|c cs IH]; intros n b Hfix.
  - rewrite take_nil. reflexivity.
  - destruct n as [|n]; [reflexivity|].
    cbn [take collapse] in *. destruct (alnum c) eqn:Hc.
    + injection Hfix as Hfix. rewrite (IH n false Hfix). reflexivity.
    + destruct b.
      * pose proof (collapse_length true cs) as Hlen.
        rewrite Hfix in Hlen. cbn [length] in Hlen. lia.
      * injection Hfix as Hsep Hfix. rewrite (IH n true Hfix), Hsep.
        reflexivity.
Qed.

Lemma collapse_slug_chars (b : bool) (cs : list ascii) :
  Forall (λ c, slug_char c = true) (collapse b (lower <$> cs)).
Proof.
  revert b. induction cs as [|c cs IH]; intros b; [constructor|].
  cbn [fmap list_fmap collapse]. destruct (alnum (lower c)) eqn:Hc.
  - constructor; [apply lower_slug_char, Hc | apply IH].
  - destruct b; [apply IH|]. constructor; [reflexivity | apply IH].
Qed.

Lemma lower_fixed (cs : list ascii) :
  Forall (λ c, slug_char c = true) cs → lower <$> cs = cs.
Proof.
  induction 1 as [|c cs Hc _ IH]; [reflexivity|].
  cbn [fmap list_fmap]. rewrite (slug_char_lower c Hc). f_equal. apply IH.
Qed.

Lemma string_of_list_ascii_length (cs : list ascii) :
  String.length (string_of_list_ascii cs) = length cs.
Proof. induction cs as [|c cs IH]; cbn; [reflexivity | f_equal; apply IH]. Qed.

Lemma slug_chars_fixed (s : string) :
  take 50 (collapse false (lower <$> slug_chars s)) = slug_chars s.
Proof.
  unfold Model.slug_chars.
  rewrite (lower_fixed (take 50 _)) by apply Forall_take, collapse_slug_chars.
  rewrite collapse_take_fixed by apply collapse_idem.
  apply take_idemp.
Qed.

End SlugifyFacts.

(** C5: the slug normalizer, alone and as the validator of [slug] calls
    it, is idempotent, returns URL-safe characters only, and returns at
    most 50 of them. *)
Theorem slugify_idempotent_url_safe_short (self : Podcast.t) (key s : string) :
  Podcast.validate_slug Model.slugify self key
    (Podcast.validate_slug Model.slugify self key s)
  = Podcast.validate_slug Model.slugify self key s
  ∧ Model.slugify (Model.slugify s) = Model.slugify s
  ∧ Forall (λ c, Model.url_safe c = true) (list_ascii_of_string (Model.slugify s))
  ∧ (String.length (Model.slugify s) ≤ 50)%nat.
Proof.
  unfold Podcast.validate_slug, Model.slugify. fold (Model.slug_chars s).
  rewrite list_ascii_of_string_of_list_ascii. repeat split.
  - f_equal. apply slug_chars_fixed.
  - f_equal. apply slug_chars_fixed.
  - eapply Forall_impl; [apply Forall_take, collapse_slug_chars|].
    apply slug_char_url_safe.
  - rewrite string_of_list_ascii_length. unfold Model.slug_chars.
    rewrite length_take. lia.
Qed.

Example slugify_examples :
  Model.slugify "My Show: Episode #1!" = "my-show-episode-1-"%string
  ∧ Model.slugify "" = ""%string
  ∧ Model.slugify "already-valid" = "already-valid"%string.
Proof. repeat split; reflexivity. Qed.

(** ** Assignment to [slug] *)

(** C6: whatever string is assigned to [slug], on a fresh instance or on
    any other, the assignment returns and the attribute then holds
    [slugify] of that string. *)
Theorem set_slug_stores_slugify (slugify : string → string) (p : Podcast.t)
    (s : string) :
  Podcast.set_slug slugify p s = Ok (Podcast.with_slug (Some (slugify s)) p)
  ∧ Podcast.slug (Podcast.with_slug (Some (slugify s)) p) = Some (slugify s)
  ∧ Podcast.set_slug slugify Podcast.new s
    = Ok (Podcast.with_slug (Some (slugify s)) Podcast.new)
  ∧ Podcast.set_slug slugify p ""
    = Ok (Podcast.with_slug (Some (slugify "")) p).
Proof. repeat split; reflexivity. Qed.

(** With the normalizer of [simpleplex.model]: the empty string and an
    already normalized string are stored as they are. *)
Lemma set_slug_already_valid (p : Podcast.t) (s : string) :
  Podcast.set_slug Model.slugify p ""
  = Ok (Podcast.with_slug (Some ""%string) p)
  ∧ Podcast.set_slug Model.slugify p (Model.slugify s)
    = Ok (Podcast.with_slug (Some (Model.slugify s)) p).
Proof.
  split; [reflexivity|].
  unfold Podcast.set_slug, Podcast.validate_slug. do 3 f_equal.
  unfold Model.slugify. rewrite list_ascii_of_string_of_list_ascii.
  f_equal. apply slug_chars_fixed.
Qed.

(** ** The [author] composite *)

Lemma Author_eq_iff (a b : Model.Author) :
  Model.Author_eq a b = true
  ↔ Model.name a = Model.name b ∧ Model.email a = Model.email b.
Proof.
  unfold Model.Author_eq.
  rewrite andb_true_iff, !bool_decide_eq_true. reflexivity.
Qed.

(** C7: an author written to a podcast is read back equal; the authors of
    two podcasts are equal exactly when their [author_name] and
    [author_email] columns agree; two authors are equal iff both fields
    match. *)
Theorem author_round_trip (p q : Podcast.t) (name email : string) :
  (∃ p', Podcast.set_author p (Model.Build_Author (Some name) (Some email)) = Ok p'
         ∧ Podcast.author p' = Model.Build_Author (Some name) (Some email)
         ∧ Model.Author_eq (Podcast.author p')
             (Model.Build_Author (Some name) (Some email)) = true)
  ∧ (Model.Author_eq (Podcast.author p) (Podcast.author q) = true
     ↔ Podcast.author_name p = Podcast.author_name q
       ∧ Podcast.author_email p = Podcast.author_email q)
  ∧ (∀ a b : Model.Author,
       Model.Author_eq a b = true
       ↔ Model.name a = Model.name b ∧ Model.email a = Model.email b).
Proof.
  split; [|split].
  - eexists. split; [reflexivity|]. split; [reflexivity|].
    apply Author_eq_iff. split; reflexivity.
  - apply Author_eq_iff.
  - apply Author_eq_iff.
Qed.

Example author_round_trip_example :
  Podcast.author
    (Podcast.with_author_email (Some "a@x.com"%string)
      (Podcast.with_author_name (Some "A"%string) Podcast.new))
  = Model.Build_Author (Some "A"%string) (Some "a@x.com"%string).
Proof. reflexivity. Qed.

(** C10: assigning the author changes [author_name] and [author_email]
    and leaves every other attribute as it was. *)
Theorem set_author_frame (p : Podcast.t) (a : Model.Author) :
  ∃ q, Podcast.set_author p a = Ok q
    ∧ Podcast.author_name q = Model.name a
    ∧ Podcast.author_email q = Model.email a
    ∧ Podcast.id q = Podcast.id p
    ∧ Podcast.slug q = Podcast.slug p
    ∧ Podcast.created_on q = Podcast.created_on p
    ∧ Podcast.modified_on q = Podcast.modified_on p
    ∧ Podcast.title q = Podcast.title p
    ∧ Podcast.subtitle q = Podcast.subtitle p
    ∧ Podcast.description q = Podcast.description p
    ∧ Podcast.category q = Podcast.category p
    ∧ Podcast.explicit q = Podcast.explicit p
    ∧ Podcast.copyright q = Podcast.copyright p
    ∧ Podcast.itunes_url q = Podcast.itunes_url p
    ∧ Podcast.feedburner_url q = Podcast.feedburner_url p.
Proof.
  destruct a as [n e]. eexists. split; [reflexivity|].
  repeat split.
Qed.

(** ** The [explicit] attribute *)

(** C8: [explicit] has three states. A new podcast, before and after the
    column default is applied, stands for "no"; assigning [True] gives
    "yes" and assigning [False] gives "clean"; the three are distinct, and
    two podcasts stand for the same iTunes value only when their attribute
    is the same. *)
Theorem explicit_tri_state (p p' : Podcast.t) (now : Z) (table : list Podcast.t) :
  Podcast.explicit Podcast.new = None
  ∧ Podcast.explicit_value Podcast.new = Podcast.no
  ∧ Podcast.explicit_value (Podcast.apply_defaults now table Podcast.new) = Podcast.no
  ∧ (∃ q, Podcast.set_explicit p true = Ok q
          ∧ Podcast.explicit q = Some true
          ∧ Podcast.explicit_value q = Podcast.yes)
  ∧ (∃ q, Podcast.set_explicit p false = Ok q
          ∧ Podcast.explicit q = Some false
          ∧ Podcast.explicit_value q = Podcast.clean)
  ∧ Podcast.yes ≠ Podcast.no
  ∧ Podcast.no ≠ Podcast.clean
  ∧ Podcast.yes ≠ Podcast.clean
  ∧ (Podcast.explicit_value p = Podcast.explicit_value p'
     ↔ Podcast.explicit p = Podcast.explicit p').
Proof.
  repeat split; try reflexivity; try discriminate;
    try (eexists; repeat split; reflexivity).
  - unfold Podcast.explicit_value.
    destruct (Podcast.explicit p) as [[]|], (Podcast.explicit p') as [[]|];
      congruence.
  - unfold Podcast.explicit_value. intros ->. reflexivity.
Qed.

(** ** Uniqueness of [slug] *)

Lemma foldr_max_ge (ks : list Z) (k : Z) : k ∈ ks → k <= foldr Z.max 0 ks.
Proof.
  induction ks as [|k' ks IH]; intros Hin.
  - apply elem_of_nil in Hin. contradiction.
  - cbn [foldr]. apply elem_of_cons in Hin as [->|Hin]; [lia|].
    specialize (IH Hin). lia.
Qed.

(** The key handed out by the table is not in use. *)
Lemma next_id_fresh (table : list Podcast.t) :
  Some (Podcast.next_id table) ∉ Podcast.id <$> table.
Proof.
  intros Hin. apply list_elem_of_fmap in Hin as (r & Hr & Hin).
  assert (Hk : Podcast.next_id table ∈ omap Podcast.id table)
    by (apply list_elem_of_omap; exists r; split; [assumption | congruence]).
  apply foldr_max_ge in Hk. unfold Podcast.next_id in Hk. lia.
Qed.

(** Inserting a new, otherwise complete instance can only fail on the
    slug. *)
Lemma insert_ready (now : Z) (table : list Podcast.t) (p : Podcast.t) (v : string) :
  Podcast.ready_for_slug p →
  Podcast.insert now table (Podcast.with_slug (Some v) p)
  = if bool_decide (Some v ∈ Podcast.slug <$> table)
    then Raise (IntegrityError (Unique "slug"))
    else Ok (table ++ [Podcast.apply_defaults now table (Podcast.with_slug (Some v) p)]).
Proof.
  intros (Hid & [t Ht] & [n Hn] & [e He]).
  destruct p as [i sl c m ti su d ca an ae ex co it fe]. cbn in Hid, Ht, Hn, He.
  subst i ti an ae. unfold Podcast.insert.
  set (row := Podcast.apply_defaults now table _).
  assert (Hnn : Podcast.check_not_null Podcast.not_null_columns row = Ok tt)
    by (destruct c, m; reflexivity).
  assert (Hkey : Podcast.id row = Some (Podcast.next_id table)) by reflexivity.
  assert (Hslug : Podcast.slug row = Some v) by reflexivity.
  rewrite Hnn. cbn [bind].
  unfold Podcast.check_primary_key, Podcast.check_unique_slug.
  rewrite Hkey, Hslug.
  rewrite (bool_decide_eq_false_2 _ (next_id_fresh table)). cbn [bind].
  case_bool_decide; reflexivity.
Qed.

(** C9: when two new podcasts are given slugs that normalize to the same
    value, both assignments return, and committing the two raises the
    integrity error of the unique constraint on [slug]. *)
Theorem duplicate_slug_fails_on_commit (slugify : string → string) (now : Z)
    (table : list Podcast.t) (p1 p2 : Podcast.t) (s1 s2 : string) :
  Podcast.ready_for_slug p1 →
  Podcast.ready_for_slug p2 →
  slugify s1 = slugify s2 →
  ∃ q1 q2,
    Podcast.set_slug slugify p1 s1 = Ok q1
    ∧ Podcast.set_slug slugify p2 s2 = Ok q2
    ∧ Podcast.commit now table [q1; q2] = Raise (IntegrityError (Unique "slug")).
Proof.
  intros H1 H2 Hsame. do 2 eexists. split; [reflexivity|]. split; [reflexivity|].
  unfold Podcast.validate_slug. rewrite <- Hsame.
  cbn [Podcast.commit]. rewrite (insert_ready _ _ _ _ H1).
  case_bool_decide as Hdup; [reflexivity|].
  cbn [bind]. rewrite (insert_ready _ _ _ _ H2).
  rewrite bool_decide_eq_true_2; [reflexivity|].
  rewrite fmap_app. apply elem_of_app. right.
  apply list_elem_of_singleton. reflexivity.
Qed.

Lemma duplicate_slug_fails_on_commit_witness :
  (Podcast.ready_for_slug my_show
   ∧ Model.slugify "My Show" = Model.slugify "my  show")
  ∧ ∃ q1 q2,
      Podcast.set_slug Model.slugify my_show "My Show" = Ok q1
      ∧ Podcast.set_slug Model.slugify my_show "my  show" = Ok q2
      ∧ Podcast.commit 0 [] [q1; q2] = Raise (IntegrityError (Unique "slug")).
Proof.
  assert (Hready : Podcast.ready_for_slug my_show)
    by (repeat split; eexists; reflexivity).
  split; [split; [exact Hready | reflexivity]|].
  exact (duplicate_slug_fails_on_commit Model.slugify 0 [] my_show my_show
           "My Show" "my  show" Hready Hready eq_refl).
Defined.

(** The two slugs of the example, and the table after the first insert. *)
Example duplicate_slug_example :
  Model.slugify "My Show" = "my-show"%string
  ∧ Podcast.commit 0 [] [Podcast.with_slug (Some "my-show"%string) my_show]
    = Ok [Podcast.Build (Some 1) (Some "my-show"%string) (Some 0) (Some 0)
            (Some "My Show"%string) None None None (Some "A"%string)
            (Some "a@x.com"%string) None None None None]
  ∧ Podcast.commit 0 [] [Podcast.with_slug (Some "my-show"%string) Podcast.new]
    = Raise (IntegrityError (NotNull "title")).
Proof. repeat split; reflexivity. Qed.

(** * Further properties *)

(** ** The counters and the [media] collection *)

Lemma holds_and2 (a b : Sql.tri) :
  Sql.holds (Sql.and2 a b) = Sql.holds a && Sql.holds b.
Proof. destruct a as [[]|], b as [[]|]; reflexivity. Qed.

Lemma holds_eq_Z (x y : Z) : Sql.holds (Sql.eq (Some x) (Some y)) = (x =? y).
Proof. cbn. destruct (x =? y); reflexivity. Qed.

(** One row's share of [media_count]. *)
Lemma media_count_cons (TRASH : Z) (p : Podcast.t) (m : Media.t)
    (rows : list Media.t) :
  Podcast.media_count TRASH p (m :: rows)
  = (if Sql.holds (Sql.eq (Media.podcast_id m) (Podcast.id p))
        && (Z.land (Media.status m) TRASH =? 0)
     then 1 else 0)
    + Podcast.media_count TRASH p rows.
Proof.
  unfold Podcast.media_count. cbn [Sql.select_count Sql.and_ foldr Sql.not_null].
  rewrite !holds_and2, andb_true_r. cbn [Sql.op_amp]. rewrite holds_eq_Z.
  cbn [Sql.holds]. rewrite andb_true_r. reflexivity.
Qed.

(** One row's share of [published_media_count]. *)
Lemma published_media_count_cons (TRASH PUBLISH : Z) (p : Podcast.t)
    (m : Media.t) (rows : list Media.t) :
  Podcast.published_media_count TRASH PUBLISH p (m :: rows)
  = (if Sql.holds (Sql.eq (Media.podcast_id m) (Podcast.id p))
        && (Z.land (Media.status m) PUBLISH =? PUBLISH)
        && (Z.land (Media.status m) TRASH =? 0)
     then 1 else 0)
    + Podcast.published_media_count TRASH PUBLISH p rows.
Proof.
  unfold Podcast.published_media_count.
  cbn [Sql.select_count Sql.and_ foldr Sql.not_null].
  rewrite !holds_and2, andb_true_r. cbn [Sql.op_amp]. rewrite !holds_eq_Z.
  cbn [Sql.holds]. rewrite andb_true_r, andb_assoc. reflexivity.
Qed.

Lemma media_cons (p : Podcast.t) (m : Media.t) (rows : list Media.t) :
  Podcast.media p (m :: rows)
  = if Sql.holds (Sql.eq (Media.podcast_id m) (Podcast.id p))
    then m :: Podcast.media p rows else Podcast.media p rows.
Proof.
  unfold Podcast.media. rewrite filter_cons.
  destruct (decide _) as [H|H]; [rewrite H; reflexivity|].
  apply not_true_is_false in H. rewrite H. reflexivity.
Qed.


(** X2: the two counters differ by the rows of the collection that are
    neither trashed nor published. *)
Theorem unpublished_between_counters (TRASH PUBLISH : Z) (p : Podcast.t)
    (rows : list Media.t) :
  Podcast.media_count TRASH p rows
  - Podcast.published_media_count TRASH PUBLISH p rows
  = Z.of_nat (length (filter (λ m, Z.land (Media.status m) PUBLISH ≠ PUBLISH
                                   ∧ Z.land (Media.status m) TRASH = 0)
                        (Podcast.media p rows))).
Proof.
  induction rows as [|m rows IH]; [reflexivity|].
  rewrite media_count_cons, published_media_count_cons, media_cons.
  destruct (Sql.holds (Sql.eq (Media.podcast_id m) (Podcast.id p)));
    cbn [andb]; [|lia].
  rewrite filter_cons.
  destruct (Z.eqb_spec (Z.land (Media.status m) TRASH) 0) as [Ht|Ht];
    destruct (Z.eqb_spec (Z.land (Media.status m) PUBLISH) PUBLISH) as [Hp|Hp];
    destruct (decide _) as [?|?]; cbn [length andb]; first [lia | tauto].
Qed.

Lemma media_count_perm (TRASH : Z) (p : Podcast.t) (rows rows' : list Media.t) :
  rows ≡ₚ rows' →
  Podcast.media_count TRASH p rows = Podcast.media_count TRASH p rows'.
Proof.
  induction 1 as [|m l l' _ IH|m m' l|l l' l'' _ IH1 _ IH2].
  - reflexivity.
  - rewrite !media_count_cons, IH. reflexivity.
  - rewrite !media_count_cons. lia.
  - congruence.
Qed.

Lemma published_media_count_perm (TRASH PUBLISH : Z) (p : Podcast.t)
    (rows rows' : list Media.t) :
  rows ≡ₚ rows' →
  Podcast.published_media_count TRASH PUBLISH p rows
  = Podcast.published_media_count TRASH PUBLISH p rows'.
Proof.
  induction 1 as [|m l l' _ IH|m m' l|l l' l'' _ IH1 _ IH2].
  - reflexivity.
  - rewrite !published_media_count_cons, IH. reflexivity.
  - rewrite !published_media_count_cons. lia.
  - congruence.
Qed.

(** X3: the counters do not depend on the order in which the table yields
    its rows. *)
Theorem counters_ignore_row_order (TRASH PUBLISH : Z) (p : Podcast.t)
    (rows rows' : list Media.t) :
  rows ≡ₚ rows' →
  Podcast.media_count TRASH p rows = Podcast.media_count TRASH p rows'
  ∧ Podcast.published_media_count TRASH PUBLISH p rows
    = Podcast.published_media_count TRASH PUBLISH p rows'.
Proof.
  intros Hperm. split;
    [apply media_count_perm | apply published_media_count_perm]; exact Hperm.
Qed.

Lemma counters_ignore_row_order_witness :
  episodes7 ≡ₚ reverse episodes7
  ∧ Podcast.media_count 1 podcast7 episodes7
    = Podcast.media_count 1 podcast7 (reverse episodes7)
  ∧ Podcast.published_media_count 1 2 podcast7 episodes7
    = Podcast.published_media_count 1 2 podcast7 (reverse episodes7).
Proof.
  assert (Hperm : episodes7 ≡ₚ reverse episodes7)
    by (symmetry; apply reverse_Permutation).
  split; [exact Hperm|].
  exact (counters_ignore_row_order 1 2 podcast7 episodes7 (reverse episodes7) Hperm).
Defined.

(** A row that one podcast counts is counted by no podcast with another
    key. *)
Lemma media_count_single (TRASH : Z) (p : Podcast.t) (m : Media.t) :
  Podcast.media_count TRASH p [m] = 0
  ∨ (Podcast.media_count TRASH p [m] = 1
     ∧ Podcast.id p = Media.podcast_id m ∧ is_Some (Podcast.id p)).
Proof.
  rewrite media_count_cons. cbn.
  destruct (Media.podcast_id m) as [j|], (Podcast.id p) as [i|]; cbn;
    try (left; reflexivity).
  destruct (Z.eqb_spec j i) as [->|]; [|left; reflexivity].
  destruct (Z.land (Media.status m) TRASH =? 0); cbn; [|left; reflexivity].
  right. repeat split. eexists; reflexivity.
Qed.

Lemma total_fmap_add {A : Type} (f g : A → Z) (l : list A) :
  Podcast.total ((λ x, f x + g x) <$> l)
  = Podcast.total (f <$> l) + Podcast.total (g <$> l).
Proof.
  induction l as [|x l IH]; [reflexivity|].
  cbn [fmap list_fmap]. unfold Podcast.total in *. cbn [foldr].
  change (list_fmap A Z ?h l) with (h <$> l) in *. lia.
Qed.

Lemma total_single_row (TRASH : Z) (m : Media.t) (ps : list Podcast.t) :
  NoDup (Podcast.id <$> ps) →
  0 <= Podcast.total ((λ p, Podcast.media_count TRASH p [m]) <$> ps) <= 1
  ∧ (Podcast.total ((λ p, Podcast.media_count TRASH p [m]) <$> ps) = 1
     → Media.podcast_id m ∈ Podcast.id <$> ps).
Proof.
  induction ps as [|p ps IH]; intros Hnd; [cbn; split; [lia | discriminate]|].
  cbn [fmap list_fmap] in *. apply NoDup_cons in Hnd as [Hp Hnd].
  destruct (IH Hnd) as [Hrange Hin]. cbn [Podcast.total foldr].
  fold (Podcast.total ((λ p, Podcast.media_count TRASH p [m]) <$> ps)) in *.
  destruct (media_count_single TRASH p m) as [H0|(H1 & Hid & _)].
  - rewrite H0. split; [lia|]. intros H. apply list_elem_of_further, Hin. lia.
  - rewrite H1. split.
    + enough (Podcast.total
                ((λ p, Podcast.media_count TRASH p [m]) <$> ps) ≠ 1) by lia.
      intros H. apply Hp. rewrite Hid. apply Hin, H.
    + intros _. rewrite <- Hid. apply list_elem_of_here.
Qed.

(** X4: over podcasts with distinct keys, the [media_count]s add up to no
    more than the number of media rows: no row counts twice. *)
Theorem media_counts_share_rows (TRASH : Z) (ps : list Podcast.t)
    (rows : list Media.t) :
  NoDup (Podcast.id <$> ps) →
  Podcast.total ((λ p, Podcast.media_count TRASH p rows) <$> ps)
  <= Z.of_nat (length rows).
Proof.
  intros Hnd. induction rows as [|m rows IH].
  - assert (H : ∀ l : list Podcast.t,
      Podcast.total ((λ p, Podcast.media_count TRASH p []) <$> l) = 0)
      by (induction l as [|x l IHl]; [reflexivity | exact IHl]).
    rewrite H. reflexivity.
  - assert (Hsplit : ∀ p, Podcast.media_count TRASH p (m :: rows)
                          = Podcast.media_count TRASH p [m]
                            + Podcast.media_count TRASH p rows).
    { intros p. rewrite !media_count_cons. cbn. lia. }
    rewrite (list_fmap_ext _ _ ps (λ _ p _, Hsplit p)).
    rewrite (total_fmap_add (λ p, Podcast.media_count TRASH p [m])).
    destruct (total_single_row TRASH m ps Hnd) as [Hrange _].
    cbn [length]. lia.
Qed.

Lemma media_counts_share_rows_witness :
  NoDup (Podcast.id <$> [podcast7; Podcast.with_id (Some 8) Podcast.new])
  ∧ Podcast.total
      ((λ p, Podcast.media_count 1 p episodes7)
         <$> [podcast7; Podcast.with_id (Some 8) Podcast.new])
    <= Z.of_nat (length episodes7).
Proof.
  assert (Hnd : NoDup (Podcast.id <$> [podcast7; Podcast.with_id (Some 8) Podcast.new]))
    by (apply (bool_decide_unpack _); vm_compute; exact I).
  split; [exact Hnd|].
  exact (media_counts_share_rows 1 [podcast7; Podcast.with_id (Some 8) Podcast.new]
           episodes7 Hnd).
Defined.

(** ** The [media] collection and its backref *)

Lemma holds_eq_true (a b : Sql.int) : Sql.holds (Sql.eq a b) = true → a = b ∧ is_Some a.
Proof.
  destruct a as [x|], b as [y|]; cbn; try discriminate.
  destruct (Z.eqb_spec x y) as [->|]; [|discriminate].
  intros _. split; [reflexivity | eexists; reflexivity].
Qed.

Lemma holds_eq_refl (x : Z) : Sql.holds (Sql.eq (Some x) (Some x)) = true.
Proof. cbn. rewrite Z.eqb_refl. reflexivity. Qed.

Lemma elem_of_media (p : Podcast.t) (rows : list Media.t) (m : Media.t) :
  m ∈ Podcast.media p rows
  ↔ m ∈ rows ∧ is_Some (Podcast.id p) ∧ Media.podcast_id m = Podcast.id p.
Proof.
  unfold Podcast.media. rewrite list_elem_of_filter. split.
  - intros [H Hin]. apply holds_eq_true in H as [Heq Hsome].
    rewrite <- Heq. auto.
  - intros (Hin & [i Hi] & Heq). split; [|exact Hin].
    rewrite Heq, Hi. apply holds_eq_refl.
Qed.

(** Looking a row up by a key that is unique in the table finds it. *)
Lemma find_by_key (table : list Podcast.t) (p : Podcast.t) (i : Z) :
  NoDup (Podcast.id <$> table) → p ∈ table → Podcast.id p = Some i →
  List.find (λ q, bool_decide (Podcast.id q = Some i)) table = Some p.
Proof.
  induction table as [|q table IH]; intros Hnd Hin Hid.
  - apply elem_of_nil in Hin. contradiction.
  - cbn [fmap list_fmap] in Hnd. apply NoDup_cons in Hnd as [Hq Hnd].
    cbn [List.find]. apply elem_of_cons in Hin as [->|Hin].
    + rewrite bool_decide_eq_true_2 by exact Hid. reflexivity.
    + rewrite bool_decide_eq_false_2; [apply IH; assumption|].
      intros Hqi. apply Hq. rewrite Hqi, <- Hid.
      apply list_elem_of_fmap_2, Hin.
Qed.

(** X5: with unique keys in [podcasts], the backref of a media row is the
    podcast [p] exactly when [p] is in the table and the row is in [p]'s
    collection. *)
Theorem media_backref_round_trip (table : list Podcast.t) (rows : list Media.t)
    (p : Podcast.t) (m : Media.t) :
  NoDup (Podcast.id <$> table) →
  m ∈ rows →
  Podcast.podcast table m = Some p ↔ p ∈ table ∧ m ∈ Podcast.media p rows.
Proof.
  intros Hnd Hm. rewrite elem_of_media. unfold Podcast.podcast. split.
  - destruct (Media.podcast_id m) as [i|]; [|discriminate].
    intros Hfind. apply List.find_some in Hfind as [Hin Hkey].
    apply bool_decide_eq_true in Hkey. apply list_elem_of_In in Hin.
    rewrite Hkey. repeat split; try assumption. eexists; reflexivity.
  - intros (Hin & _ & [i Hi] & Heq). rewrite Heq, Hi.
    apply find_by_key; assumption.
Qed.

Lemma media_backref_round_trip_witness :
  (NoDup (Podcast.id <$> [podcast7; Podcast.with_id (Some 8) Podcast.new])
   ∧ Media.Build 2 (Some 7) 2 ∈ episodes7)
  ∧ (Podcast.podcast [podcast7; Podcast.with_id (Some 8) Podcast.new]
       (Media.Build 2 (Some 7) 2) = Some podcast7
     ↔ podcast7 ∈ [podcast7; Podcast.with_id (Some 8) Podcast.new]
       ∧ Media.Build 2 (Some 7) 2 ∈ Podcast.media podcast7 episodes7).
Proof.
  assert (Hnd : NoDup (Podcast.id <$> [podcast7; Podcast.with_id (Some 8) Podcast.new]))
    by (apply (bool_decide_unpack _); vm_compute; exact I).
  assert (Hin : Media.Build 2 (Some 7) 2 ∈ episodes7)
    by (apply list_elem_of_further, list_elem_of_here).
  split; [split; assumption|].
  exact (media_backref_round_trip _ episodes7 podcast7 _ Hnd Hin).
Defined.

(** ** Inserting rows into [podcasts] *)


Lemma apply_defaults_id (now : Z) (table : list Podcast.t) (p : Podcast.t) :
  Podcast.id (Podcast.apply_defaults now table p)
  = Some (default (Podcast.next_id table) (Podcast.id p)).
Proof. cbn. destruct (Podcast.id p); reflexivity. Qed.


(** What a successful INSERT has checked. *)
Lemma insert_Ok_inv (now : Z) (table table' : list Podcast.t) (p : Podcast.t) :
  Podcast.insert now table p = Ok table' →
  table' = table ++ [Podcast.apply_defaults now table p]
  ∧ Podcast.check_not_null Podcast.not_null_columns
      (Podcast.apply_defaults now table p) = Ok tt
  ∧ (Podcast.id (Podcast.apply_defaults now table p) ∉ Podcast.id <$> table)
  ∧ (Podcast.slug (Podcast.apply_defaults now table p) ∉ Podcast.slug <$> table).
Proof.
  unfold Podcast.insert.
  destruct (Podcast.check_not_null _ _) as [[]|e]; cbn [bind]; [|discriminate].
  unfold Podcast.check_primary_key. case_bool_decide; cbn [bind]; [discriminate|].
  unfold Podcast.check_unique_slug. case_bool_decide; cbn [bind]; [discriminate|].
  intros [= <-]. repeat split; assumption.
Qed.





(** X8: the INSERT raises a NOT NULL violation exactly when one of the four
    required attributes was never assigned; the timestamps never cause
    one, their defaults fill them in. *)
Theorem insert_not_null_iff (now : Z) (table : list Podcast.t) (p : Podcast.t) :
  ((∃ column, Podcast.insert now table p = Raise (IntegrityError (NotNull column)))
   ↔ Podcast.slug p = None ∨ Podcast.title p = None
     ∨ Podcast.author_name p = None ∨ Podcast.author_email p = None)
  ∧ Podcast.insert now table p ≠ Raise (IntegrityError (NotNull "created_on"))
  ∧ Podcast.insert now table p ≠ Raise (IntegrityError (NotNull "modified_on")).
Proof.
  destruct p as [i sl c m ti su d ca an ae ex co it fe].
  assert (Hpresent : ∀ s t n e column,
    Podcast.insert now table
      (Podcast.Build i (Some s) c m (Some t) su d ca (Some n) (Some e) ex co it fe)
    ≠ Raise (IntegrityError (NotNull column))).
  { intros s t n e column. unfold Podcast.insert.
    replace (Podcast.check_not_null _ _) with (Ok tt : result unit)
      by (destruct c, m; reflexivity).
    cbn [bind]. unfold Podcast.check_primary_key.
    case_bool_decide; cbn [bind]; [discriminate|].
    unfold Podcast.check_unique_slug.
    case_bool_decide; cbn [bind]; discriminate. }
  cbn [Podcast.slug Podcast.title Podcast.author_name Podcast.author_email].
  destruct sl as [s|], ti as [t|], an as [n|], ae as [e|];
    try (split; [split; [intros _; tauto | intros _; eexists];
                 destruct c, m; reflexivity
                | split; destruct c, m; discriminate]).
  split; [|split; apply Hpresent].
  split.
  - intros [column H]. exfalso. exact (Hpresent s t n e column H).
  - intros [H|[H|[H|H]]]; discriminate.
Qed.



(** ** Committing *)

Lemma insert_keeps_table_ok (now : Z) (table table' : list Podcast.t)
    (p : Podcast.t) :
  Podcast.table_ok table →
  Podcast.insert now table p = Ok table' →
  Podcast.table_ok table'.
Proof.
  intros (Hids & Hslugs & Hrows) Hins.
  apply insert_Ok_inv in Hins as (-> & Hnn & Hkey & Hslug).
  unfold Podcast.table_ok. rewrite !fmap_app. cbn [fmap list_fmap].
  split; [|split].
  - apply NoDup_app. split; [exact Hids|]. split; [|apply NoDup_singleton].
    intros k Hk Hk'. apply list_elem_of_singleton in Hk'. subst k.
    exact (Hkey Hk).
  - apply NoDup_app. split; [exact Hslugs|]. split; [|apply NoDup_singleton].
    intros k Hk Hk'. apply list_elem_of_singleton in Hk'. subst k.
    exact (Hslug Hk).
  - apply Forall_app. split; [exact Hrows|].
    apply Forall_singleton. split; [|exact Hnn].
    rewrite apply_defaults_id. eexists; reflexivity.
Qed.

(** X10: committing keeps what the table's declaration promises: keys set and
    unique, slugs unique, required columns filled. *)
Theorem commit_keeps_table_ok (now : Z) (table table' : list Podcast.t)
    (pending : list Podcast.t) :
  Podcast.table_ok table →
  Podcast.commit now table pending = Ok table' →
  Podcast.table_ok table'.
Proof.
  revert table. induction pending as [|p pending IH]; intros table Hok Hcommit.
  - cbn in Hcommit. injection Hcommit as <-. exact Hok.
  - cbn [Podcast.commit] in Hcommit.
    destruct (Podcast.insert now table p) as [table1|e] eqn:Hins;
      cbn [bind] in Hcommit; [|discriminate].
    apply (IH table1); [|exact Hcommit].
    exact (insert_keeps_table_ok now table table1 p Hok Hins).
Qed.

Lemma table_ok_nil : Podcast.table_ok [].
Proof. repeat split; constructor. Qed.

Lemma commit_keeps_table_ok_witness :
  (Podcast.table_ok []
   ∧ Podcast.commit 5 []
       [Podcast.with_slug (Some "my-show"%string) my_show;
        Podcast.with_slug (Some "other"%string) my_show]
     = Ok [Podcast.apply_defaults 5 []
             (Podcast.with_slug (Some "my-show"%string) my_show);
           Podcast.with_id (Some 2)
             (Podcast.apply_defaults 5 []
                (Podcast.with_slug (Some "other"%string) my_show))])
  ∧ Podcast.table_ok
      [Podcast.apply_defaults 5 []
         (Podcast.with_slug (Some "my-show"%string) my_show);
       Podcast.with_id (Some 2)
         (Podcast.apply_defaults 5 []
            (Podcast.with_slug (Some "other"%string) my_show))].
Proof.
  split; [split; [exact table_ok_nil | reflexivity]|].
  exact (commit_keeps_table_ok 5 [] _
           [Podcast.with_slug (Some "my-show"%string) my_show;
            Podcast.with_slug (Some "other"%string) my_show]
           table_ok_nil eq_refl).
Defined.



(** ** A new row and the counters *)

Lemma counters_zero_without_rows (TRASH PUBLISH : Z) (p : Podcast.t)
    (rows : list Media.t) :
  (∀ m, m ∈ rows → Media.podcast_id m ≠ Podcast.id p) →
  Podcast.media_count TRASH p rows = 0
  ∧ Podcast.published_media_count TRASH PUBLISH p rows = 0.
Proof.
  induction rows as [|m rows IH]; intros Hnone; [split; reflexivity|].
  destruct IH as [IH1 IH2].
  { intros m' Hm'. apply Hnone. right. exact Hm'. }
  rewrite media_count_cons, published_media_count_cons, IH1, IH2.
  destruct (Sql.holds (Sql.eq (Media.podcast_id m) (Podcast.id p))) eqn:Hown.
  - apply holds_eq_true in Hown as [Hown _].
    exfalso. apply (Hnone m); [left | exact Hown].
  - split; reflexivity.
Qed.

(** X12: when every foreign key in [media] names a stored podcast, a podcast
    just inserted under a key from the table has no episodes: both of
    its counters are 0 and its collection is empty. *)
Theorem new_podcast_has_no_episodes (TRASH PUBLISH now : Z)
    (table table' : list Podcast.t) (rows : list Media.t) (p : Podcast.t) :
  Podcast.references_ok table rows →
  Podcast.id p = None →
  Podcast.insert now table p = Ok table' →
  ∃ row, last table' = Some row
    ∧ Podcast.media_count TRASH row rows = 0
    ∧ Podcast.published_media_count TRASH PUBLISH row rows = 0
    ∧ Podcast.media row rows = [].
Proof.
  intros Href Hid Hins. apply insert_Ok_inv in Hins as (-> & _).
  exists (Podcast.apply_defaults now table p).
  split; [apply last_snoc|].
  assert (Hnone : ∀ m, m ∈ rows →
    Media.podcast_id m ≠ Podcast.id (Podcast.apply_defaults now table p)).
  { intros m Hm Heq. rewrite apply_defaults_id, Hid in Heq. cbn in Heq.
    apply (next_id_fresh table). exact (Href m _ Hm Heq). }
  destruct (counters_zero_without_rows TRASH PUBLISH _ rows Hnone) as [H1 H2].
  split; [exact H1|]. split; [exact H2|].
  destruct (Podcast.media _ rows) as [|m ms] eqn:Hmedia; [reflexivity|].
  assert (Hm : m ∈ Podcast.media (Podcast.apply_defaults now table p) rows)
    by (rewrite Hmedia; left).
  apply elem_of_media in Hm as (Hm & _ & Heq).
  exfalso. exact (Hnone m Hm Heq).
Qed.

Lemma new_podcast_has_no_episodes_witness :
  (Podcast.references_ok [podcast7] episodes7
   ∧ Podcast.id (Podcast.with_slug (Some "my-show"%string) my_show) = None
   ∧ Podcast.insert 5 [podcast7]
       (Podcast.with_slug (Some "my-show"%string) my_show)
     = Ok ([podcast7] ++ [Podcast.apply_defaults 5 [podcast7]
                            (Podcast.with_slug (Some "my-show"%string) my_show)]))
  ∧ ∃ row,
      last ([podcast7] ++ [Podcast.apply_defaults 5 [podcast7]
                             (Podcast.with_slug (Some "my-show"%string) my_show)])
      = Some row
      ∧ Podcast.media_count 1 row episodes7 = 0
      ∧ Podcast.published_media_count 1 2 row episodes7 = 0
      ∧ Podcast.media row episodes7 = [].
Proof.
  assert (Href : Podcast.references_ok [podcast7] episodes7).
  { intros m i Hm Hi. unfold episodes7 in Hm.
    repeat (apply elem_of_cons in Hm as [->|Hm]);
      try (cbn in Hi; injection Hi as <-; left).
    apply elem_of_nil in Hm. contradiction. }
  split; [split; [exact Href | split; reflexivity]|].
  exact (new_podcast_has_no_episodes 1 2 5 [podcast7] _ episodes7
           (Podcast.with_slug (Some "my-show"%string) my_show)
           Href eq_refl eq_refl).
Defined.

(** ** [__repr__] *)

Lemma append_closing_inj (s s' : string) :
  String.append s ">" = String.append s' ">" → s = s'.
Proof.
  revert s'. induction s as [|c s IH]; intros [|c' s'] H; cbn in H.
  - reflexivity.
  - injection H as _ H. destruct s'; discriminate.
  - injection H as _ H. destruct s; discriminate.
  - injection H as -> H. f_equal. apply IH, H.
Qed.

(** X13: the printed form of a podcast is decided by its slug alone and tells
    two assigned slugs apart; a podcast whose slug was never assigned
    prints like one whose slug is the word None. *)
Theorem repr_tells_slugs_apart (p q : Podcast.t) (s1 s2 : string) :
  (Podcast.repr (Podcast.with_slug (Some s1) p)
   = Podcast.repr (Podcast.with_slug (Some s2) q) ↔ s1 = s2)
  ∧ Podcast.repr (Podcast.with_slug None p)
    = Podcast.repr (Podcast.with_slug (Some "None"%string) q).
Proof.
  split; [|reflexivity]. split.
  - unfold Podcast.repr. cbn [Podcast.slug Podcast.with_slug].
    intros H. cbn in H. injection H as H. apply append_closing_inj, H.
  - intros ->. reflexivity.
Qed.

Example repr_example :
  Podcast.repr (Podcast.with_slug (Some "my-show"%string) my_show)
  = "<Podcast: my-show>"%string
  ∧ Podcast.repr Podcast.new = "<Podcast: None>"%string.
Proof. split; reflexivity. Qed.

(** ** Assignments *)


